(** * joctomap natives: [definitions.h]

    The native bridge of joctomap keeps the identifiers it hands to the JVM
    (class names, field names, the constructor name and two type
    signatures) in one header of object-like macros,
    [src/main/resources/joctomap-natives/src/definitions.h].

    The header is embedded line by line as a list of preprocessing lines,
    together with the part of the C preprocessor it exercises: the
    conditional stack of [#ifndef]/[#endif], the macro table filled by
    [#define], and the replacement of a macro name by its replacement list.
    The JNI notions the statements need (internal class names and type
    signatures) are decidable predicates on strings. *)

From Stdlib Require Import Ascii String.
From stdpp Require Import gmap strings list fin_maps.

Open Scope string_scope.

(** ** The preprocessor fragment *)

Module Cpp.

(** Preprocessing tokens of a replacement list: string literals (the
    text between the double quotes), character literals and
    identifiers. *)
Inductive pp_token : Type :=
| PStringLit (s : string)
| PCharLit (c : ascii)
| PIdent (name : string).

Definition is_literal (t : pp_token) : bool :=
  match t with
  | PStringLit _ | PCharLit _ => true
  | PIdent _ => false
  end.

#[global] Instance pp_token_eq_dec : EqDecision pp_token.
Proof. solve_decision. Defined.

(** One entry per construct of the file, in file order.  A block comment
    keeps the lines between its opening and closing line; the comment
    that follows [#endif] on its line is white space to the preprocessor
    and is not kept. *)
Inductive line : Type :=
| Blank
| BlockComment (text : list string)
| LineComment (text : string)
| Ifndef (name : string)
| Define (name : string) (body : list pp_token)
| Endif.

(** Macro table and the stack of open conditional groups; [true] marks a
    group whose lines are processed. *)
Record pp_state : Type := PPState {
  macros : gmap string (list pp_token);
  conds : list bool
}.

Definition active (st : pp_state) : bool := forallb id (conds st).

(** One line.  Comments and blank lines do nothing.  [#ifndef] opens a
    group that is processed when the name is not a macro (and every
    enclosing group is processed).  [#define] in a processed group enters
    the macro; a name that is already a macro may only be defined again
    with the same replacement list (ISO C 6.10.3), anything else is
    rejected.  [#endif] closes the innermost group and is rejected when
    none is open. *)
Definition step (st : pp_state) (l : line) : option pp_state :=
  match l with
  | Blank | BlockComment _ | LineComment _ => Some st
  | Ifndef name =>
      Some (PPState (macros st)
              (bool_decide (macros st !! name = None) :: conds st))
  | Define name body =>
      if active st then
        match macros st !! name with
        | None => Some (PPState (<[name := body]> (macros st)) (conds st))
        | Some old => if decide (old = body) then Some st else None
        end
      else Some st
  | Endif =>
      match conds st with
      | [] => None
      | _ :: cs => Some (PPState (macros st) cs)
      end
  end.

Fixpoint run (ls : list line) (st : pp_state) : option pp_state :=
  match ls with
  | [] => Some st
  | l :: ls' =>
      match step st l with
      | Some st' => run ls' st'
      | None => None
      end
  end.

(** Processing a whole file in a translation unit whose macro table is
    [m]: every conditional opened by the file must be closed by it. *)
Definition include (h : list line) (m : gmap string (list pp_token))
  : option (gmap string (list pp_token)) :=
  match run h (PPState m []) with
  | Some st => match conds st with [] => Some (macros st) | _ => None end
  | None => None
  end.

(** Macro replacement with rescanning; a name being replaced is not
    replaced again inside its own expansion ([hide]). *)
Fixpoint expand (fuel : nat) (m : gmap string (list pp_token))
    (hide : list string) (ts : list pp_token) : list pp_token :=
  match fuel with
  | O => ts
  | S fuel' =>
      flat_map
        (fun t =>
           match t with
           | PIdent name =>
               if bool_decide (name ∈ hide) then [t]
               else match m !! name with
                    | Some body => expand fuel' m (name :: hide) body
                    | None => [t]
                    end
           | PStringLit _ | PCharLit _ => [t]
           end) ts
  end.

(** What a use of [name] in the program text is replaced by. *)
Definition evaluate (m : gmap string (list pp_token)) (name : string)
  : list pp_token :=
  expand (S (size m)) m [] [PIdent name].

(** The [#define] lines of a file, in file order. *)
Fixpoint defines (ls : list line) : list (string * list pp_token) :=
  match ls with
  | [] => []
  | Define name body :: ls' => (name, body) :: defines ls'
  | _ :: ls' => defines ls'
  end.

(** The macros whose replacement list is exactly one string literal,
    with the literal's text. *)
Fixpoint string_constants (ds : list (string * list pp_token))
  : list (string * string) :=
  match ds with
  | [] => []
  | (name, [PStringLit s]) :: ds' => (name, s) :: string_constants ds'
  | _ :: ds' => string_constants ds'
  end.

(** Category groups: a [//] comment opens a group that collects the
    [#define] lines up to the next [//] comment.  Defines before the
    first such comment belong to no group. *)
Fixpoint groups_from (cur : option (string * list (string * list pp_token)))
    (ls : list line) : list (string * list (string * list pp_token)) :=
  match ls with
  | [] => match cur with Some g => [g] | None => [] end
  | LineComment title :: ls' =>
      match cur with
      | Some g => g :: groups_from (Some (title, [])) ls'
      | None => groups_from (Some (title, [])) ls'
      end
  | Define name body :: ls' =>
      match cur with
      | Some (title, ds) =>
          groups_from (Some (title, (ds ++ [(name, body)])%list)) ls'
      | None => groups_from None ls'
      end
  | _ :: ls' => groups_from cur ls'
  end.

Definition groups (ls : list line)
  : list (string * list (string * list pp_token)) :=
  groups_from None ls.

(** Lines that neither open nor close a conditional group. *)
Definition is_flat (l : line) : bool :=
  match l with
  | Ifndef _ | Endif => false
  | _ => true
  end.

(** Lines the preprocessor discards. *)
Definition is_trivia (l : line) : bool :=
  match l with
  | Blank | BlockComment _ | LineComment _ => true
  | _ => false
  end.

(** The include-guard idiom around [body]. *)
Definition guarded (guard : string) (body : list line) : list line :=
  Ifndef guard :: Define guard [] :: (body ++ [Endif])%list.

(** The macro table [m] has no macro that one of the defines [ds] would
    redefine with a different replacement list. *)
Definition accepts (ds : list (string * list pp_token))
    (m : gmap string (list pp_token)) : bool :=
  forallb
    (fun d => match m !! fst d with
              | None => true
              | Some old => bool_decide (old = snd d)
              end) ds.

End Cpp.

Import Cpp.

(** ** The header *)

Module Definitions.

(** [definitions.h], lines 1 to 38. *)
Definition definitions_h : list line :=
  [ BlockComment
      [ " * To change this license header, choose License Headers in Project Properties.";
        " * To change this template file, choose Tools | Templates";
        " * and open the template in the editor." ];
    Blank;
    BlockComment
      [ " * File:   definitions.h";
        " * Author: adrian.gonzalez";
        " *";
        " * Created on 31 de mayo de 2016, 18:38" ];
    Blank;
    Ifndef "DEFINITIONS_H";
    Define "DEFINITIONS_H" [];
    Blank;
    LineComment "Classes";
    Define "CLS_STRING" [PStringLit "Ljava/lang/String;"];
    Define "CLS_LEAFBBXITERATOR"
      [PStringLit "es/usc/citius/lab/joctomap/iterators/LeafBBXIterator"];
    Define "CLS_POINT3D"
      [PStringLit "es/usc/citius/lab/motionplanner/core/spatial/Point3D"];
    Define "CLS_JOCTREENODE"
      [PStringLit "es/usc/citius/lab/joctomap/octree/JOctreeNode"];
    Define "CLS_JOCTREEKEY"
      [PStringLit "es/usc/citius/lab/joctomap/octree/JOctreeKey"];
    Define "CLS_JOCTREE"
      [PStringLit "es/usc/citius/lab/joctomap/octree/JOctree"];
    Blank;
    LineComment "Fields";
    Define "FIELD_PATH" [PStringLit "path"];
    Define "FIELD_X" [PStringLit "x"];
    Define "FIELD_Y" [PStringLit "y"];
    Define "FIELD_Z" [PStringLit "z"];
    Blank;
    LineComment "Methods";
    Define "METHOD_CONSTRUCTOR" [PStringLit "<init>"];
    Blank;
    LineComment "Signatures";
    Define "SIGNATURE_FLOAT" [PStringLit "F"];
    Define "SIGNATURE_INT" [PStringLit "I"];
    Blank;
    Endif ].

End Definitions.

Import Definitions.


(** ** JNI names and type signatures *)

Module Jni.

Definition is_letter (c : ascii) : bool :=
  let n := nat_of_ascii c in
  ((65 <=? n)%nat && (n <=? 90)%nat) || ((97 <=? n)%nat && (n <=? 122)%nat).

Definition is_digit (c : ascii) : bool :=
  let n := nat_of_ascii c in (48 <=? n)%nat && (n <=? 57)%nat.

Definition is_ident_start (c : ascii) : bool :=
  is_letter c || Ascii.eqb c "_" || Ascii.eqb c "$".

Definition is_ident_part (c : ascii) : bool :=
  is_ident_start c || is_digit c.

Fixpoint all_chars (p : ascii -> bool) (s : string) : bool :=
  match s with
  | EmptyString => true
  | String c s' => p c && all_chars p s'
  end.

Fixpoint contains_char (c : ascii) (s : string) : bool :=
  match s with
  | EmptyString => false
  | String d s' => Ascii.eqb d c || contains_char c s'
  end.

Definition first_char (s : string) : option ascii :=
  match s with
  | EmptyString => None
  | String c _ => Some c
  end.

Fixpoint last_char (s : string) : option ascii :=
  match s with
  | EmptyString => None
  | String c EmptyString => Some c
  | String _ s' => last_char s'
  end.

(** A Java identifier (ASCII part). *)
Definition is_identifier (s : string) : bool :=
  match s with
  | EmptyString => false
  | String c s' => is_ident_start c && all_chars is_ident_part s'
  end.

(** The segments of [s] between occurrences of [sep]. *)
Fixpoint split_on (sep : ascii) (s : string) : list string :=
  match s with
  | EmptyString => [EmptyString]
  | String c s' =>
      if Ascii.eqb c sep then EmptyString :: split_on sep s'
      else match split_on sep s' with
           | seg :: segs => String c seg :: segs
           | [] => [String c EmptyString]
           end
  end.

(** Internal form of a class name, as [FindClass] takes it: identifiers
    separated by [/]. *)
Definition is_internal_name (s : string) : bool :=
  forallb is_identifier (split_on "/" s).

(** A package-qualified class path: an internal name with at least one
    package segment before the class name. *)
Definition is_class_path (s : string) : bool :=
  is_internal_name s && (2 <=? length (split_on "/" s))%nat.

Definition is_primitive_code (c : ascii) : bool :=
  existsb (Ascii.eqb c)
    ["Z"; "B"; "C"; "S"; "I"; "J"; "F"; "D"]%char.

(** The text up to the first [;] and the text after it. *)
Fixpoint until_semicolon (s : string) : option (string * string) :=
  match s with
  | EmptyString => None
  | String c s' =>
      if Ascii.eqb c ";" then Some (EmptyString, s')
      else match until_semicolon s' with
           | Some (name, rest) => Some (String c name, rest)
           | None => None
           end
  end.

(** Reads one field type signature off the front of [s] and returns what
    follows it: a primitive code, [L] internal-name [;], or [[] and a
    field type signature. *)
Fixpoint read_field (s : string) : option string :=
  match s with
  | EmptyString => None
  | String c s' =>
      if is_primitive_code c then Some s'
      else if Ascii.eqb c "[" then read_field s'
      else if Ascii.eqb c "L" then
        match until_semicolon s' with
        | Some (name, rest) =>
            if is_internal_name name then Some rest else None
        | None => None
        end
      else None
  end.

Definition is_field_signature (s : string) : bool :=
  match read_field s with
  | Some EmptyString => true
  | _ => false
  end.

Definition is_primitive_signature (s : string) : bool :=
  match s with
  | String c EmptyString => is_primitive_code c
  | _ => false
  end.

Definition is_reference_signature (s : string) : bool :=
  match s with
  | String c _ => Ascii.eqb c "L" && is_field_signature s
  | EmptyString => false
  end.

(** Reads field type signatures up to the closing parenthesis of a
    method signature; at most [fuel] of them. *)
Fixpoint read_params (fuel : nat) (s : string) : option string :=
  match fuel with
  | O => None
  | S fuel' =>
      match s with
      | EmptyString => None
      | String c s' =>
          if Ascii.eqb c ")" then Some s'
          else match read_field s with
               | Some rest => read_params fuel' rest
               | None => None
               end
      end
  end.

Definition is_method_signature (s : string) : bool :=
  match s with
  | String c s' =>
      Ascii.eqb c "(" &&
      match read_params (S (String.length s')) s' with
      | Some ret => String.eqb ret "V" || is_field_signature ret
      | None => false
      end
  | EmptyString => false
  end.

(** A JNI type signature: of a field type or of a method. *)
Definition is_type_signature (s : string) : bool :=
  is_field_signature s || is_method_signature s.

(** Java types and the type signature the JNI documents for each. *)
Inductive jtype : Type :=
| JBoolean | JByte | JChar | JShort | JInt | JLong | JFloat | JDouble
| JClass (internal_name : string)
| JArray (elem : jtype).

Fixpoint signature_of (t : jtype) : string :=
  match t with
  | JBoolean => "Z" | JByte => "B" | JChar => "C" | JShort => "S"
  | JInt => "I" | JLong => "J" | JFloat => "F" | JDouble => "D"
  | JClass name => "L" +:+ name +:+ ";"
  | JArray elem => "[" +:+ signature_of elem
  end.

(** The internal name of class [cls] of package [pkg]. *)
Definition internal_name_of (pkg : list string) (cls : string) : string :=
  String.concat "/" (pkg ++ [cls])%list.

End Jni.

Module Header.

Definition guard_name : string := "DEFINITIONS_H".

(** Lines 1 to 13: the two comments before the guard. *)
Definition preamble : list line := take 4 definitions_h.

(** Lines 16 to 37: what the guard encloses. *)
Definition guarded_lines : list line := removelast (drop 6 definitions_h).

(** All macros of the header with their replacement lists. *)
Definition header_macros : list (string * list pp_token) :=
  defines definitions_h.

(** The macros of the header that stand for one string literal. *)
Definition header_constants : list (string * string) :=
  string_constants header_macros.

(** The defines of the group titled [title]. *)
Definition group (title : string) : option (list (string * list pp_token)) :=
  snd <$> List.find (fun g => String.eqb (fst g) title) (groups definitions_h).

(** The macro table of a translation unit that consists of the header
    alone. *)
Definition header_table : gmap string (list pp_token) :=
  list_to_map header_macros.

(** The titles of the groups that hold a define of [name]. *)
Definition groups_holding (name : string) : list string :=
  fst <$> List.filter
            (fun g => existsb (fun d => String.eqb (fst d) name) (snd g))
            (groups definitions_h).

(** The shape [L...;] of a reference type signature. *)
Definition has_descriptor_form (s : string) : bool :=
  bool_decide (Jni.first_char s = Some "L"%char) &&
  bool_decide (Jni.last_char s = Some ";"%char).

Definition with_prefix (p : string) (cs : list (string * string))
  : list (string * string) :=
  List.filter (fun nv => String.prefix p (fst nv)) cs.

Definition with_value (p : string -> bool) (cs : list (string * string))
  : list (string * string) :=
  List.filter (fun nv => p (snd nv)) cs.

(** The names the header reserves: its guard and everything that starts
    with one of the four prefixes of its constants. *)
Definition is_header_name (n : string) : bool :=
  String.eqb n guard_name ||
  existsb (fun p => String.prefix p n)
    ["CLS_"; "FIELD_"; "METHOD_"; "SIGNATURE_"].

End Header.

Import Header.

(** ** Facts about the preprocessor fragment *)

Section Preprocessor.

Implicit Types (st : pp_state) (ls body pre : list line).
Implicit Types (m T : gmap string (list pp_token)).

Lemma run_app ls1 ls2 st :
  run (ls1 ++ ls2) st = run ls1 st ≫= run ls2.
Proof.
  revert st. induction ls1 as [|l ls1 IH]; intros st; simpl; [done|].
  destruct (step st l); simpl; [apply IH | done].
Qed.

Lemma run_trivia ls st :
  forallb is_trivia ls = true → run ls st = Some st.
Proof.
  induction ls as [|l ls IH]; simpl; [done|].
  intros [Hl Hls]%andb_prop. destruct l; simpl in *; try done; auto.
Qed.

(** Inside a group that is skipped, flat lines change nothing. *)
Lemma run_flat_skipped ls st :
  forallb is_flat ls = true → active st = false → run ls st = Some st.
Proof.
  induction ls as [|l ls IH]; simpl; [done|].
  intros [Hl Hls]%andb_prop Hoff.
  destruct l; simpl in *; try done; auto.
  rewrite Hoff. auto.
Qed.

(** Inside a group that is processed, flat lines leave the conditional
    stack alone and add exactly their defines to the table. *)
Lemma run_flat_active ls st st' :
  forallb is_flat ls = true → active st = true → run ls st = Some st' →
  conds st' = conds st ∧
  ∀ n b, macros st' !! n = Some b ↔
         macros st !! n = Some b ∨ (n, b) ∈ defines ls.
Proof.
  revert st. induction ls as [|l ls IH]; simpl; intros st Hflat Hon Hrun.
  { simplify_eq. split; [done|]. intros n b. rewrite elem_of_nil. tauto. }
  apply andb_prop in Hflat as [Hl Hls].
  destruct l as [| | | |name body|]; simpl in *; try done;
    try (by apply IH).
  rewrite Hon in Hrun.
  destruct (macros st !! name) as [old|] eqn:Hname.
  - destruct (decide (old = body)) as [->|]; [|done].
    destruct (IH st Hls Hon Hrun) as [Hc Hm]. split; [done|].
    intros n b. rewrite Hm, elem_of_cons. split; [tauto|].
    intros [?|[?|?]]; [tauto| |tauto]. simplify_eq. tauto.
  - apply IH in Hrun as [Hc Hm]; [|done|exact Hon].
    simpl in *. split; [done|].
    intros n b. rewrite Hm, elem_of_cons, lookup_insert_Some. split.
    + intros [[[-> ->]|[? ?]]|?]; tauto.
    + intros [?|[?|?]]; [|simplify_eq; tauto|tauto].
      destruct (decide (name = n)) as [->|]; [congruence|tauto].
Qed.

Section Guarded.

Variables (guard : string) (pre body : list line).
Hypothesis pre_trivia : forallb is_trivia pre = true.
Hypothesis body_flat : forallb is_flat body = true.

(** The guard macro is already defined: the file adds nothing. *)
Lemma include_guarded_defined m :
  is_Some (m !! guard) → include (pre ++ guarded guard body) m = Some m.
Proof.
  intros [old Hold]. unfold include, guarded.
  rewrite run_app, run_trivia by done. simpl.
  rewrite bool_decide_false by congruence. simpl.
  rewrite run_app, run_flat_skipped by done. done.
Qed.

(** The guard macro is not defined yet: a successful inclusion adds the
    guard and the defines of the body, and nothing else. *)
Lemma include_guarded_fresh m T :
  m !! guard = None → include (pre ++ guarded guard body) m = Some T →
  ∀ n b, T !! n = Some b ↔
         m !! n = Some b ∨ (n, b) ∈ (guard, []) :: defines body.
Proof.
  intros Hfresh. unfold include, guarded.
  rewrite run_app, run_trivia by done. simpl.
  rewrite bool_decide_true by done. simpl. rewrite Hfresh.
  rewrite run_app.
  destruct (run body _) as [st1|] eqn:Hbody; simpl; [|done].
  apply run_flat_active in Hbody as [Hc Hm]; [|done..].
  simpl in *. rewrite Hc. intros HT. simpl in HT. simplify_eq.
  intros n b. rewrite Hm, elem_of_cons, lookup_insert_Some. split.
  - intros [[[-> ->]|[? ?]]|?]; tauto.
  - intros [?|[?|?]]; [|simplify_eq; tauto|tauto].
    destruct (decide (guard = n)) as [->|]; [congruence|tauto].
Qed.

Lemma include_guarded_idempotent m :
  include (pre ++ guarded guard body) m
    ≫= include (pre ++ guarded guard body)
  = include (pre ++ guarded guard body) m.
Proof.
  destruct (m !! guard) as [old|] eqn:Hg.
  - rewrite include_guarded_defined by eauto. simpl.
    by rewrite include_guarded_defined by eauto.
  - destruct (include (pre ++ guarded guard body) m) as [T|] eqn:HT;
      simpl; [|done].
    apply include_guarded_defined. exists [].
    apply (include_guarded_fresh m T Hg HT). right. left.
Qed.

End Guarded.

(** A macro that stands for one literal is replaced by that literal. *)
Lemma expand_literal fuel T hide n t :
  is_literal t = true → T !! n = Some [t] → n ∉ hide →
  expand (S fuel) T hide [PIdent n] = [t].
Proof.
  intros Hlit Hn Hhide. simpl.
  rewrite bool_decide_false by done. rewrite Hn.
  destruct fuel as [|fuel]; simpl; destruct t; simpl in *; done.
Qed.

Lemma evaluate_literal T n t :
  is_literal t = true → T !! n = Some [t] → evaluate T n = [t].
Proof.
  intros. unfold evaluate. apply expand_literal; [done..|]. set_solver.
Qed.

Lemma string_constants_spec (ds : list (string * list pp_token)) n v :
  (n, v) ∈ string_constants ds ↔ (n, [PStringLit v]) ∈ ds.
Proof.
  induction ds as [|[name body] ds IH]; simpl.
  { rewrite !elem_of_nil. tauto. }
  destruct body as [|[s| |] [|? ?]]; rewrite ?elem_of_cons, IH;
    generalize ((n, [PStringLit v]) ∈ ds); intros P;
    (split; [intros [?|?] || intros ? | intros [?|?]]); simplify_eq; auto.
Qed.

Lemma elem_of_with_value (p : string → bool) cs n v :
  (n, v) ∈ with_value p cs ↔ (n, v) ∈ cs ∧ p v = true.
Proof.
  unfold with_value. rewrite !list_elem_of_In, filter_In. done.
Qed.

End Preprocessor.

(** ** Facts about the header *)

Section HeaderFacts.

Implicit Types (m T : gmap string (list pp_token)).

Lemma header_shape :
  definitions_h = (preamble ++ guarded guard_name guarded_lines)%list.
Proof. reflexivity. Qed.

Lemma header_macros_shape :
  header_macros = (guard_name, []) :: defines guarded_lines.
Proof. reflexivity. Qed.

Lemma preamble_trivia : forallb is_trivia preamble = true.
Proof. reflexivity. Qed.

Lemma guarded_lines_flat : forallb is_flat guarded_lines = true.
Proof. reflexivity. Qed.

(** The header on its own is accepted and yields [header_table]. *)
Lemma include_header_empty : include definitions_h ∅ = Some header_table.
Proof. vm_compute. reflexivity. Qed.

Lemma include_header_defined m :
  is_Some (m !! guard_name) → include definitions_h m = Some m.
Proof.
  rewrite header_shape.
  apply include_guarded_defined;
    [apply preamble_trivia | apply guarded_lines_flat].
Qed.

Lemma include_header_fresh m T :
  m !! guard_name = None → include definitions_h m = Some T →
  ∀ n b, T !! n = Some b ↔ m !! n = Some b ∨ (n, b) ∈ header_macros.
Proof.
  rewrite header_shape, header_macros_shape.
  apply include_guarded_fresh;
    [apply preamble_trivia | apply guarded_lines_flat].
Qed.

Lemma include_header_idempotent m :
  include definitions_h m ≫= include definitions_h = include definitions_h m.
Proof.
  rewrite header_shape.
  apply include_guarded_idempotent;
    [apply preamble_trivia | apply guarded_lines_flat].
Qed.

Lemma header_table_lookup n b :
  header_table !! n = Some b ↔ (n, b) ∈ header_macros.
Proof.
  rewrite (include_header_fresh ∅ header_table);
    [|done|apply include_header_empty].
  rewrite lookup_empty. split; [intros [?|?]; [done|tauto] | tauto].
Qed.

(** The string constants of the header are the names the header defines
    as one string literal. *)
Lemma header_constant_lookup n v :
  header_table !! n = Some [PStringLit v] ↔ (n, v) ∈ header_constants.
Proof.
  unfold header_constants.
  by rewrite header_table_lookup, string_constants_spec.
Qed.

(** Apart from the guard, every macro of the header is a string
    constant. *)
Lemma header_macros_constants :
  header_macros =
    (guard_name, []) ::
    ((λ nv, (fst nv, [PStringLit (snd nv)])) <$> header_constants).
Proof. reflexivity. Qed.

Lemma header_constant_names_distinct : NoDup (fst <$> header_constants).
Proof. apply (bool_decide_unpack _). vm_compute. exact I. Qed.

End HeaderFacts.

Ltac in_concrete_list :=
  apply list_elem_of_In; vm_compute;
  repeat (first [left; reflexivity | right]).

(** Picks the value the header gives to the constant named in the goal. *)
Ltac exists_constant_value :=
  match goal with
  | |- ∃ v, (?n, v) ∈ header_constants ∧ _ =>
      let r := eval vm_compute in
        (List.find (fun nv => String.eqb (fst nv) n) header_constants) in
      match r with
      | Some (_, ?v) => exists v
      end
  end.

(** ** The statements *)

(** C1. The type-signature constants carry the documented JNI codes:
    [SIGNATURE_FLOAT] is the one-character string [F], the signature of
    [float]; [SIGNATURE_INT] is the one-character string [I], the signature
    of [int]; [CLS_STRING] is [Ljava/lang/String;], the signature of a
    reference to [java/lang/String]. *)
Theorem signature_constants_exact :
  ∃ T, include definitions_h ∅ = Some T ∧
    T !! "SIGNATURE_FLOAT" = Some [PStringLit (String "F" EmptyString)] ∧
    T !! "SIGNATURE_INT" = Some [PStringLit (String "I" EmptyString)] ∧
    T !! "CLS_STRING" = Some [PStringLit "Ljava/lang/String;"] ∧
    evaluate T "SIGNATURE_FLOAT" =
      [PStringLit (Jni.signature_of Jni.JFloat)] ∧
    evaluate T "SIGNATURE_INT" = [PStringLit (Jni.signature_of Jni.JInt)] ∧
    evaluate T "CLS_STRING" =
      [PStringLit (Jni.signature_of (Jni.JClass "java/lang/String"))].
Proof.
  exists header_table. split; [apply include_header_empty|].
  repeat split; vm_compute; reflexivity.
Qed.

(** C2. [CLS_JOCTREE] is exactly [es/usc/citius/lab/joctomap/octree/JOctree],
    the package-qualified path of class [JOctree] of package
    [es.usc.citius.lab.joctomap.octree]. *)
Theorem cls_joctree_exact :
  ∃ T, include definitions_h ∅ = Some T ∧
    T !! "CLS_JOCTREE" =
      Some [PStringLit "es/usc/citius/lab/joctomap/octree/JOctree"] ∧
    evaluate T "CLS_JOCTREE" =
      [PStringLit "es/usc/citius/lab/joctomap/octree/JOctree"] ∧
    "es/usc/citius/lab/joctomap/octree/JOctree" =
      Jni.internal_name_of
        ["es"; "usc"; "citius"; "lab"; "joctomap"; "octree"] "JOctree" ∧
    Jni.is_class_path "es/usc/citius/lab/joctomap/octree/JOctree" = true.
Proof.
  exists header_table. split; [apply include_header_empty|].
  repeat split; vm_compute; reflexivity.
Qed.

(** C3. Exactly five of the constants the header defines have a
    package-qualified class path as their value: [CLS_LEAFBBXITERATOR],
    [CLS_POINT3D], [CLS_JOCTREENODE], [CLS_JOCTREEKEY] and [CLS_JOCTREE]. *)
Theorem class_path_constants_five :
  with_value Jni.is_class_path header_constants =
    [ ("CLS_LEAFBBXITERATOR",
       "es/usc/citius/lab/joctomap/iterators/LeafBBXIterator");
      ("CLS_POINT3D",
       "es/usc/citius/lab/motionplanner/core/spatial/Point3D");
      ("CLS_JOCTREENODE", "es/usc/citius/lab/joctomap/octree/JOctreeNode");
      ("CLS_JOCTREEKEY", "es/usc/citius/lab/joctomap/octree/JOctreeKey");
      ("CLS_JOCTREE", "es/usc/citius/lab/joctomap/octree/JOctree") ] ∧
  length (with_value Jni.is_class_path header_constants) = 5 ∧
  ∃ T, include definitions_h ∅ = Some T ∧
    ∀ n v, T !! n = Some [PStringLit v] ∧ Jni.is_class_path v = true ↔
           (n, v) ∈ with_value Jni.is_class_path header_constants.
Proof.
  split; [vm_compute; reflexivity|]. split; [vm_compute; reflexivity|].
  exists header_table. split; [apply include_header_empty|].
  intros n v. by rewrite elem_of_with_value, header_constant_lookup.
Qed.

(** C4. The header defines exactly four field-name constants:
    [FIELD_PATH] is [path], [FIELD_X] is [x], [FIELD_Y] is [y] and
    [FIELD_Z] is [z]. *)
Theorem field_name_constants_four :
  group "Fields" =
    Some [ ("FIELD_PATH", [PStringLit "path"]); ("FIELD_X", [PStringLit "x"]);
           ("FIELD_Y", [PStringLit "y"]); ("FIELD_Z", [PStringLit "z"]) ] ∧
  with_prefix "FIELD_" header_constants =
    [ ("FIELD_PATH", "path"); ("FIELD_X", "x");
      ("FIELD_Y", "y"); ("FIELD_Z", "z") ] ∧
  length (with_prefix "FIELD_" header_constants) = 4 ∧
  ∃ T, include definitions_h ∅ = Some T ∧
    evaluate T "FIELD_PATH" = [PStringLit "path"] ∧
    evaluate T "FIELD_X" = [PStringLit "x"] ∧
    evaluate T "FIELD_Y" = [PStringLit "y"] ∧
    evaluate T "FIELD_Z" = [PStringLit "z"].
Proof.
  do 3 (split; [vm_compute; reflexivity|]).
  exists header_table. split; [apply include_header_empty|].
  repeat split; vm_compute; reflexivity.
Qed.

(** C5. The header defines exactly one method-name constant,
    [METHOD_CONSTRUCTOR], and its value is [<init>]. *)
Theorem method_name_constant_one :
  group "Methods" = Some [ ("METHOD_CONSTRUCTOR", [PStringLit "<init>"]) ] ∧
  with_prefix "METHOD_" header_constants =
    [ ("METHOD_CONSTRUCTOR", "<init>") ] ∧
  length (with_prefix "METHOD_" header_constants) = 1 ∧
  ∃ T, include definitions_h ∅ = Some T ∧
    T !! "METHOD_CONSTRUCTOR" = Some [PStringLit "<init>"] ∧
    evaluate T "METHOD_CONSTRUCTOR" = [PStringLit "<init>"].
Proof.
  do 3 (split; [vm_compute; reflexivity|]).
  exists header_table. split; [apply include_header_empty|].
  split; vm_compute; reflexivity.
Qed.

(** C6, as stated, fails: [CLS_STRING] is a defined constant whose value is
    a JNI type signature and it is not one of the primitive ones. *)
Lemma cls_string_is_a_type_signature :
  ¬ (∀ n v,
       (n, v) ∈ header_constants → Jni.is_type_signature v = true →
       (n, v) ∈ with_value Jni.is_primitive_signature header_constants).
Proof.
  intros Hall.
  assert (("CLS_STRING", "Ljava/lang/String;")
            ∈ with_value Jni.is_primitive_signature header_constants) as Hin.
  { apply Hall; [in_concrete_list | vm_compute; reflexivity]. }
  apply elem_of_with_value in Hin as [_ Hprim]. vm_compute in Hprim.
  discriminate.
Qed.

(** C6, amended. Exactly two constants are signatures of primitive types,
    [SIGNATURE_FLOAT] and [SIGNATURE_INT], and they make up the group
    [Signatures]; exactly one more constant is a JNI type signature,
    [CLS_STRING], the signature of a reference type. *)
Theorem type_signature_constants :
  with_value Jni.is_primitive_signature header_constants =
    [ ("SIGNATURE_FLOAT", "F"); ("SIGNATURE_INT", "I") ] ∧
  group "Signatures" =
    Some [ ("SIGNATURE_FLOAT", [PStringLit "F"]);
           ("SIGNATURE_INT", [PStringLit "I"]) ] ∧
  with_value Jni.is_type_signature header_constants =
    [ ("CLS_STRING", "Ljava/lang/String;");
      ("SIGNATURE_FLOAT", "F"); ("SIGNATURE_INT", "I") ] ∧
  with_value Jni.is_reference_signature header_constants =
    [ ("CLS_STRING", "Ljava/lang/String;") ] ∧
  ∃ T, include definitions_h ∅ = Some T ∧
    ∀ n v, T !! n = Some [PStringLit v] ∧ Jni.is_type_signature v = true ↔
           (n, v) ∈ with_value Jni.is_type_signature header_constants.
Proof.
  do 4 (split; [vm_compute; reflexivity|]).
  exists header_table. split; [apply include_header_empty|].
  intros n v. by rewrite elem_of_with_value, header_constant_lookup.
Qed.

(** C7, as stated, fails: the header does not have six groups. *)
Lemma groups_are_not_six : length (groups definitions_h) ≠ 6.
Proof. vm_compute. discriminate. Qed.

(** C7, amended. The constants of the header fall into exactly four groups,
    [Classes], [Fields], [Methods] and [Signatures], of six, four, one and
    two constants; every constant is in exactly one group and every member
    of a group is a constant. *)
Theorem groups_partition_constants :
  fst <$> groups definitions_h =
    ["Classes"; "Fields"; "Methods"; "Signatures"] ∧
  (λ g, length (snd g)) <$> groups definitions_h = [6; 4; 1; 2] ∧
  length (groups definitions_h) = 4 ∧
  length header_constants = 13 ∧
  string_constants (concat (snd <$> groups definitions_h))
    = header_constants ∧
  length (concat (snd <$> groups definitions_h)) = 13 ∧
  Forall (λ nv, length (groups_holding (fst nv)) = 1) header_constants.
Proof.
  do 6 (split; [vm_compute; reflexivity|]).
  apply (bool_decide_unpack _). vm_compute. exact I.
Qed.

(** C8, as stated, fails: the header also defines [DEFINITIONS_H], and
    evaluating that name yields no token at all, not a literal. *)
Lemma guard_macro_is_not_a_literal :
  ¬ (∀ T n, include definitions_h ∅ = Some T → is_Some (T !! n) →
            ∃ t, is_literal t = true ∧ evaluate T n = [t]).
Proof.
  intros Hall.
  destruct (Hall header_table guard_name) as (t & _ & Ht).
  - vm_compute. reflexivity.
  - exists []. vm_compute. reflexivity.
  - vm_compute in Ht. discriminate.
Qed.

(** C8, amended. Every name the header defines other than the include
    guard [DEFINITIONS_H] is an object-like macro whose replacement list is
    one string literal; evaluating the name yields that literal whatever
    macros the translation unit had before a successful inclusion with the
    guard not yet defined, with any amount of fuel and whatever names are
    being replaced around it.  The guard itself evaluates to nothing. *)
Theorem header_constants_are_fixed_literals
    (m T : gmap string (list pp_token)) (n : string) (b : list pp_token) :
  m !! guard_name = None →
  include definitions_h m = Some T →
  (n, b) ∈ header_macros →
  n ≠ guard_name →
  ∃ s, b = [PStringLit s] ∧
       (n, s) ∈ header_constants ∧
       T !! n = Some [PStringLit s] ∧
       evaluate T n = [PStringLit s] ∧
       (∀ fuel hide, n ∉ hide →
          expand (S fuel) T hide [PIdent n] = [PStringLit s]) ∧
       evaluate T guard_name = [].
Proof.
  intros Hfresh Hinc Hin Hne.
  pose proof (include_header_fresh m T Hfresh Hinc) as HT.
  rewrite header_macros_constants, elem_of_cons in Hin.
  destruct Hin as [?|Hin]; [simplify_eq|].
  apply list_elem_of_fmap in Hin as ([n' s] & ? & Hc). simplify_eq. simpl.
  assert (T !! n' = Some [PStringLit s]) as Hn.
  { apply HT. right. by apply string_constants_spec. }
  exists s. repeat split; [done|done|by apply evaluate_literal| |].
  - intros fuel hide Hhide. by apply expand_literal.
  - assert (T !! guard_name = Some []) as Hg.
    { apply HT. right. rewrite header_macros_shape. left. }
    unfold evaluate. simpl. rewrite Hg. by destruct (size T).
Qed.

Lemma header_constants_are_fixed_literals_witness :
  (∅ : gmap string (list pp_token)) !! guard_name = None ∧
  include definitions_h ∅ = Some header_table ∧
  ("FIELD_X", [PStringLit "x"]) ∈ header_macros ∧
  "FIELD_X" ≠ guard_name ∧
  ∃ s, [PStringLit "x"] = [PStringLit s] ∧
       ("FIELD_X", s) ∈ header_constants ∧
       header_table !! "FIELD_X" = Some [PStringLit s] ∧
       evaluate header_table "FIELD_X" = [PStringLit s] ∧
       (∀ fuel hide, "FIELD_X" ∉ hide →
          expand (S fuel) header_table hide [PIdent "FIELD_X"] =
            [PStringLit s]) ∧
       evaluate header_table guard_name = [].
Proof.
  assert ((∅ : gmap string (list pp_token)) !! guard_name = None) as H1
    by reflexivity.
  assert (include definitions_h ∅ = Some header_table) as H2
    by (vm_compute; reflexivity).
  assert (("FIELD_X", [PStringLit "x"]) ∈ header_macros) as H3
    by in_concrete_list.
  assert ("FIELD_X" ≠ guard_name) as H4 by discriminate.
  repeat (split; [assumption|]).
  exact (header_constants_are_fixed_literals
           ∅ header_table "FIELD_X" [PStringLit "x"] H1 H2 H3 H4).
Defined.

(** C9. Including the header is idempotent: in any translation unit a
    second inclusion right after the first leaves the macro table as the
    first left it, because the guard [DEFINITIONS_H] is then defined; in
    particular the header on its own yields 14 macros and a second
    inclusion yields the same table. *)
Theorem include_twice_is_include_once :
  (∀ m : gmap string (list pp_token),
     include definitions_h m ≫= include definitions_h =
     include definitions_h m) ∧
  ∃ T, include definitions_h ∅ = Some T ∧
       include definitions_h T = Some T ∧
       T !! guard_name = Some [] ∧
       size T = 14.
Proof.
  split; [apply include_header_idempotent|].
  exists header_table. split; [apply include_header_empty|].
  split; [|split; vm_compute; reflexivity].
  apply include_header_defined. exists []. vm_compute. reflexivity.
Qed.

(** C10. The values of [CLS_LEAFBBXITERATOR], [CLS_POINT3D],
    [CLS_JOCTREENODE], [CLS_JOCTREEKEY] and [CLS_JOCTREE] are internal
    class names: identifiers separated by [/], with no [.], not starting
    with [L] and not ending in [;].  [CLS_STRING] is the only constant of
    the form [L...;], and it is a reference type signature. *)
Theorem class_constants_internal_form :
  Forall
    (λ n, ∃ v, (n, v) ∈ header_constants ∧
               Jni.is_internal_name v = true ∧
               Jni.contains_char "/" v = true ∧
               Jni.contains_char "." v = false ∧
               Jni.first_char v ≠ Some "L"%char ∧
               Jni.last_char v ≠ Some ";"%char)
    [ "CLS_LEAFBBXITERATOR"; "CLS_POINT3D"; "CLS_JOCTREENODE";
      "CLS_JOCTREEKEY"; "CLS_JOCTREE" ] ∧
  with_prefix "CLS_" header_constants =
    ("CLS_STRING", "Ljava/lang/String;")
      :: with_value Jni.is_class_path header_constants ∧
  with_value has_descriptor_form header_constants =
    [ ("CLS_STRING", "Ljava/lang/String;") ] ∧
  Jni.first_char "Ljava/lang/String;" = Some "L"%char ∧
  Jni.last_char "Ljava/lang/String;" = Some ";"%char ∧
  Jni.is_reference_signature "Ljava/lang/String;" = true ∧
  Jni.is_internal_name "Ljava/lang/String;" = false.
Proof.
  split.
  { repeat apply Forall_cons_2; [..|apply Forall_nil_2];
      exists_constant_value;
      (split; [in_concrete_list|]);
      repeat split; try (vm_compute; reflexivity); vm_compute; discriminate. }
  repeat split; vm_compute; reflexivity.
Qed.

(** ** The header inside a larger translation unit *)

Section Inclusion.

Implicit Types (st : pp_state) (ls body pre rest : list line).
Implicit Types (m T : gmap string (list pp_token)).

Lemma step_define_conds st st' n b :
  step st (Define n b) = Some st' → conds st' = conds st.
Proof.
  simpl. destruct (active st); [|by intros [= <-]].
  destruct (macros st !! n) as [old|]; [|by intros [= <-]].
  destruct (decide (old = b)); [by intros [= <-]|done].
Qed.

(** Flat lines never touch the conditional stack. *)
Lemma run_flat_conds ls st st' :
  forallb is_flat ls = true → run ls st = Some st' → conds st' = conds st.
Proof.
  revert st. induction ls as [|l ls IH]; intros st Hflat Hrun.
  { simpl in Hrun. by simplify_eq. }
  cbn [forallb] in Hflat. apply andb_prop in Hflat as [Hl Hls].
  cbn [run] in Hrun. destruct (step st l) as [st1|] eqn:Hstep; [|done].
  rewrite (IH st1 Hls Hrun).
  destruct l; try done; try (simpl in Hstep; by simplify_eq).
  by apply step_define_conds in Hstep.
Qed.

(** Flat lines are accepted in a processed group when the table has no
    conflicting macro and the lines do not conflict with each other. *)
Lemma run_flat_accepted ls st :
  forallb is_flat ls = true → active st = true →
  (∀ n b b', (n, b) ∈ defines ls → (n, b') ∈ defines ls → b = b') →
  (∀ n b, (n, b) ∈ defines ls →
          macros st !! n = None ∨ macros st !! n = Some b) →
  is_Some (run ls st).
Proof.
  revert st. induction ls as [|l ls IH]; intros st Hflat Hon Hcons Hcompat.
  { by eexists. }
  cbn [forallb] in Hflat. apply andb_prop in Hflat as [Hl Hls].
  destruct l as [| | | |name body|]; try done;
    try (by apply IH).
  cbn [run step defines] in *. rewrite Hon.
  assert (∀ n b b', (n, b) ∈ defines ls → (n, b') ∈ defines ls → b = b')
    as Hcons'.
  { intros n b b' Hb Hb'. apply (Hcons n); by right. }
  destruct (Hcompat name body) as [Hnone|Hsome]; [by left| |].
  - rewrite Hnone. apply IH; [done|exact Hon|done|]. simpl.
    intros n b Hin. destruct (decide (name = n)) as [->|Hne].
    + right. rewrite lookup_insert_eq. f_equal.
      apply (Hcons n); [by left|by right].
    + rewrite lookup_insert_ne by done. apply Hcompat. by right.
  - rewrite Hsome. rewrite decide_True by done.
    apply IH; [done..|]. intros n b Hin. apply Hcompat. by right.
Qed.

Lemma accepts_spec (ds : list (string * list pp_token)) m :
  accepts ds m = true ↔
  ∀ n b, (n, b) ∈ ds → m !! n = None ∨ m !! n = Some b.
Proof.
  unfold accepts. rewrite forallb_forall. split.
  - intros Hall n b Hin. apply list_elem_of_In, Hall in Hin. simpl in Hin.
    destruct (m !! n) as [old|]; [|by left].
    right. f_equal. by apply bool_decide_eq_true in Hin.
  - intros Hall [n b] Hin. apply list_elem_of_In, Hall in Hin. simpl.
    destruct Hin as [->| ->]; [done|]. by apply bool_decide_eq_true.
Qed.

Section GuardedInclusion.

Variables (guard : string) (pre body : list line).
Hypothesis pre_trivia : forallb is_trivia pre = true.
Hypothesis body_flat : forallb is_flat body = true.

Lemma run_guarded_balanced st st' :
  run (pre ++ guarded guard body) st = Some st' → conds st' = conds st.
Proof.
  unfold guarded. rewrite run_app, run_trivia by done.
  remember (Define guard []) as d eqn:Hd. simpl.
  destruct (step _ d) as [st1|] eqn:Hdef; [|done]. subst d.
  apply step_define_conds in Hdef. rewrite run_app.
  destruct (run body st1) as [st2|] eqn:Hbody; [|done].
  apply run_flat_conds in Hbody; [|done].
  simpl. rewrite Hbody, Hdef. simpl. by intros [= <-].
Qed.

Lemma run_guarded_skipped st :
  active st = false → run (pre ++ guarded guard body) st = Some st.
Proof.
  intros Hoff. unfold guarded. rewrite run_app, run_trivia by done.
  simpl. unfold active at 1. simpl. fold (active st).
  rewrite Hoff, andb_false_r.
  rewrite run_app, run_flat_skipped; [|done|].
  - simpl. by destruct st.
  - unfold active. simpl. fold (active st). by rewrite Hoff, andb_false_r.
Qed.

Lemma run_guarded_defined st :
  is_Some (macros st !! guard) →
  run (pre ++ guarded guard body) st = Some st.
Proof.
  intros [old Hold]. unfold guarded. rewrite run_app, run_trivia by done.
  simpl. rewrite bool_decide_false by congruence.
  unfold active at 1. simpl.
  rewrite run_app, run_flat_skipped; [|done|done].
  simpl. by destruct st.
Qed.

Lemma include_guarded_then rest m :
  include ((pre ++ guarded guard body) ++ rest) m =
  include (pre ++ guarded guard body) m ≫= include rest.
Proof.
  unfold include. rewrite run_app.
  destruct (run (pre ++ guarded guard body) _) as [st1|] eqn:Hrun; [|done].
  apply run_guarded_balanced in Hrun. simpl in Hrun.
  destruct st1 as [T cs]. simpl in *. by subst cs.
Qed.


Lemma include_guarded_accepted m :
  m !! guard = None →
  (∀ n b b', (n, b) ∈ (guard, []) :: defines body →
             (n, b') ∈ (guard, []) :: defines body → b = b') →
  accepts ((guard, []) :: defines body) m = true →
  is_Some (include (pre ++ guarded guard body) m).
Proof.
  intros Hfresh Hcons Hacc. unfold include, guarded.
  rewrite run_app, run_trivia by done. simpl.
  rewrite bool_decide_true by done. simpl. rewrite Hfresh, run_app.
  destruct (run_flat_accepted body
              (PPState (<[guard:=[]]> m) [true])) as [st1 Hbody];
    [done|done| | |].
  - intros n b b' Hb Hb'. apply (Hcons n); by right.
  - simpl. intros n b Hin. destruct (decide (guard = n)) as [->|Hne].
    + right. rewrite lookup_insert_eq. f_equal.
      apply (Hcons n); [by left|by right].
    + rewrite lookup_insert_ne by done.
      apply (proj1 (accepts_spec _ m) Hacc). by right.
  - rewrite Hbody. simpl.
    apply run_flat_conds in Hbody as Hc; [|done]. simpl in Hc.
    rewrite Hc. simpl. by eexists.
Qed.

(** The complete effect of a guarded file whose defines have distinct
    names, on a table that does not have the guard yet. *)
Lemma include_guarded_result m :
  NoDup (fst <$> (guard, []) :: defines body) →
  m !! guard = None →
  include (pre ++ guarded guard body) m =
    if accepts ((guard, []) :: defines body) m
    then Some (m ∪ list_to_map ((guard, []) :: defines body))
    else None.
Proof.
  intros Hnodup Hfresh.
  set (ds := (guard, []) :: defines body) in *.
  assert (∀ n b b', (n, b) ∈ ds → (n, b') ∈ ds → b = b') as Hcons.
  { intros n b b' Hb%(elem_of_list_to_map_1 _ _ _ Hnodup)
                  Hb'%(elem_of_list_to_map_1 _ _ _ Hnodup). congruence. }
  destruct (accepts ds m) eqn:Hacc.
  - destruct (include_guarded_accepted m Hfresh Hcons Hacc) as [T HT].
    rewrite HT. f_equal. apply map_eq. intros n. apply option_eq. intros b.
    rewrite (include_guarded_fresh guard pre body pre_trivia body_flat
               m T Hfresh HT n b).
    rewrite lookup_union_Some_raw, <-(elem_of_list_to_map _ _ _ Hnodup).
    fold ds. split; [|tauto].
    intros [?|Hin]; [by left|].
    destruct (proj1 (accepts_spec ds m) Hacc n b Hin); [by right|by left].
  - destruct (include (pre ++ guarded guard body) m) as [T|] eqn:HT; [|done].
    assert (accepts ds m = true) as Hacc'; [|congruence].
    apply accepts_spec. intros n b Hin.
    pose proof (include_guarded_fresh guard pre body pre_trivia body_flat
                  m T Hfresh HT) as Hiff.
    destruct (m !! n) as [old|] eqn:Hn; [|by left]. right. f_equal.
    assert (T !! n = Some old) as Hold by (apply Hiff; by left).
    assert (T !! n = Some b) as Hnew by (apply Hiff; by right).
    congruence.
Qed.

End GuardedInclusion.

Lemma defines_Permutation ls1 ls2 :
  ls1 ≡ₚ ls2 → defines ls1 ≡ₚ defines ls2.
Proof.
  induction 1 as [|l ls1 ls2 _ IH|l1 l2 ls|ls1 ls2 ls3 _ IH1 _ IH2].
  - done.
  - destruct l; simpl; by rewrite ?IH.
  - destruct l1, l2; simpl; try done. apply perm_swap.
  - by etrans.
Qed.

Lemma forallb_Permutation {A} (f : A → bool) (l1 l2 : list A) :
  l1 ≡ₚ l2 → forallb f l1 = forallb f l2.
Proof.
  induction 1 as [|x l1 l2 _ IH|x y l|l1 l2 l3 _ IH1 _ IH2]; simpl.
  - done.
  - by rewrite IH.
  - by destruct (f x), (f y).
  - congruence.
Qed.

End Inclusion.

(** ** Further statements about including the header *)

Lemma header_macro_names_distinct : NoDup (fst <$> header_macros).
Proof. apply (bool_decide_unpack _). vm_compute. exact I. Qed.

Lemma header_names_reserved :
  forallb (fun d => is_header_name (fst d)) header_macros = true.
Proof. vm_compute. reflexivity. Qed.

Lemma include_header_result (m : gmap string (list pp_token)) :
  m !! guard_name = None →
  include definitions_h m =
    if accepts header_macros m then Some (m ∪ header_table) else None.
Proof.
  rewrite header_shape. unfold header_table. rewrite header_macros_shape.
  apply include_guarded_result;
    [apply preamble_trivia | apply guarded_lines_flat |].
  rewrite <-header_macros_shape. apply header_macro_names_distinct.
Qed.

(** X1. Where [DEFINITIONS_H] is already a macro the header does nothing:
    processing it leaves the macro table and the conditional stack as
    they were, whatever else is defined and in whatever conditional
    context; none of its constants gets defined. *)
Theorem header_noop_when_guard_defined (st : pp_state) :
  is_Some (macros st !! guard_name) → run definitions_h st = Some st.
Proof.
  rewrite header_shape.
  apply run_guarded_defined;
    [apply preamble_trivia | apply guarded_lines_flat].
Qed.

Lemma header_noop_when_guard_defined_witness :
  is_Some
    (macros (PPState {[ guard_name := [PStringLit "1"] ]} [true])
       !! guard_name) ∧
  run definitions_h (PPState {[ guard_name := [PStringLit "1"] ]} [true]) =
    Some (PPState {[ guard_name := [PStringLit "1"] ]} [true]).
Proof.
  assert (is_Some
            (macros (PPState {[ guard_name := [PStringLit "1"] ]} [true])
               !! guard_name)) as H1
    by (exists [PStringLit "1"]; vm_compute; reflexivity).
  split; [exact H1|].
  exact (header_noop_when_guard_defined _ H1).
Defined.

(** X2. Inside a conditional group that is being skipped the header does
    nothing either: it defines no macro, not even its guard, and leaves
    the conditional stack as it was. *)
Theorem header_noop_when_skipped (st : pp_state) :
  active st = false → run definitions_h st = Some st.
Proof.
  rewrite header_shape.
  apply run_guarded_skipped;
    [apply preamble_trivia | apply guarded_lines_flat].
Qed.

Lemma header_noop_when_skipped_witness :
  active (PPState ∅ [true; false]) = false ∧
  run definitions_h (PPState ∅ [true; false]) =
    Some (PPState ∅ [true; false]).
Proof.
  assert (active (PPState ∅ [true; false]) = false) as H1 by reflexivity.
  split; [exact H1|].
  exact (header_noop_when_skipped _ H1).
Defined.

(** X3. The header is balanced: whenever it is processed to its end, the
    conditional stack is what it was before, so the header never leaves a
    group open and never closes a group of the including file. *)
Theorem header_balanced (st st' : pp_state) :
  run definitions_h st = Some st' → conds st' = conds st.
Proof.
  rewrite header_shape.
  apply run_guarded_balanced;
    [apply preamble_trivia | apply guarded_lines_flat].
Qed.

Lemma header_balanced_witness :
  run definitions_h (PPState ∅ [true]) = Some (PPState header_table [true]) ∧
  conds (PPState header_table [true]) = conds (PPState ∅ [true]).
Proof.
  assert (run definitions_h (PPState ∅ [true]) =
            Some (PPState header_table [true])) as H1
    by (vm_compute; reflexivity).
  split; [exact H1|].
  exact (header_balanced _ _ H1).
Defined.

(** X4. Text that follows the header is processed as a file of its own on
    the table the header leaves: a file that starts with the lines of the
    header is accepted exactly when the header is accepted and the rest is
    accepted on its result, and yields the same table. *)
Theorem header_then_rest (rest : list line)
    (m : gmap string (list pp_token)) :
  include (definitions_h ++ rest) m =
  include definitions_h m ≫= include rest.
Proof.
  rewrite header_shape.
  apply include_guarded_then;
    [apply preamble_trivia | apply guarded_lines_flat].
Qed.





(** X7. The header only touches names it reserves: a name whose
    definition differs before and after an accepted inclusion is
    [DEFINITIONS_H] or starts with [CLS_], [FIELD_], [METHOD_] or
    [SIGNATURE_]. *)
Theorem header_touches_reserved_names_only
    (m T : gmap string (list pp_token)) (n : string) :
  include definitions_h m = Some T →
  T !! n ≠ m !! n →
  is_header_name n = true.
Proof.
  intros Hinc Hdiff.
  destruct (m !! guard_name) as [old|] eqn:Hg.
  { rewrite include_header_defined in Hinc by eauto. by simplify_eq. }
  pose proof (include_header_fresh m T Hg Hinc) as Hiff.
  destruct (T !! n) as [b|] eqn:HT.
  - apply Hiff in HT as [Hm|Hin]; [congruence|].
    pose proof header_names_reserved as Hres.
    rewrite forallb_forall in Hres.
    apply list_elem_of_In in Hin. by apply Hres in Hin.
  - destruct (m !! n) as [b|] eqn:Hm; [|done].
    assert (T !! n = Some b) by (apply Hiff; by left). congruence.
Qed.

Lemma header_touches_reserved_names_only_witness :
  include definitions_h {[ "NDEBUG" := [] ]} =
    Some ({[ "NDEBUG" := [] ]} ∪ header_table) ∧
  ({[ "NDEBUG" := [] ]} ∪ header_table) !! "CLS_POINT3D" ≠
    ({[ "NDEBUG" := [] ]} : gmap string (list pp_token)) !! "CLS_POINT3D" ∧
  is_header_name "CLS_POINT3D" = true.
Proof.
  assert (include definitions_h {[ "NDEBUG" := [] ]} =
            Some ({[ "NDEBUG" := [] ]} ∪ header_table)) as H1
    by (vm_compute; reflexivity).
  assert (({[ "NDEBUG" := [] ]} ∪ header_table) !! "CLS_POINT3D" ≠
          ({[ "NDEBUG" := [] ]} : gmap string (list pp_token))
            !! "CLS_POINT3D") as H2
    by (vm_compute; discriminate).
  split; [exact H1|]. split; [exact H2|].
  exact (header_touches_reserved_names_only _ _ _ H1 H2).
Defined.

(** X8. The order of the lines between [#define DEFINITIONS_H] and
    [#endif] does not matter: with these lines in any other order the
    header is accepted on the same tables and yields the same table. *)
Theorem header_line_order_irrelevant (body : list line)
    (m : gmap string (list pp_token)) :
  body ≡ₚ guarded_lines →
  include (preamble ++ guarded guard_name body) m = include definitions_h m.
Proof.
  intros Hperm.
  assert (forallb is_flat body = true) as Hflat.
  { rewrite (forallb_Permutation _ _ _ Hperm). apply guarded_lines_flat. }
  pose proof (defines_Permutation _ _ Hperm) as Hdefs.
  assert ((guard_name, []) :: defines body ≡ₚ header_macros) as Hds.
  { rewrite header_macros_shape. by constructor. }
  destruct (m !! guard_name) as [old|] eqn:Hg.
  { rewrite include_header_defined by eauto.
    apply include_guarded_defined; [apply preamble_trivia|done|eauto]. }
  rewrite include_header_result by done.
  rewrite include_guarded_result;
    [|apply preamble_trivia|done| |done].
  - unfold accepts. rewrite (forallb_Permutation _ _ _ Hds).
    unfold header_table.
    rewrite (list_to_map_proper _ _ header_macro_names_distinct
               (symmetry Hds)) at 1.
    done.
  - rewrite Hds. apply header_macro_names_distinct.
Qed.

Lemma header_line_order_irrelevant_witness :
  reverse guarded_lines ≡ₚ guarded_lines ∧
  include (preamble ++ guarded guard_name (reverse guarded_lines)) ∅ =
    include definitions_h ∅.
Proof.
  assert (reverse guarded_lines ≡ₚ guarded_lines) as H1
    by apply reverse_Permutation.
  split; [exact H1|].
  exact (header_line_order_irrelevant _ ∅ H1).
Defined.
